(** * rqlite [auth]: the credential store

    A shallow embedding of [auth/credential_store.go] and the properties
    of its password check, permission lookup and loader.

    Conventions of the embedding.
    - Go maps are stdpp finite maps: [map[string]string] is
      [gmap string string], [map[string]map[string]bool] is
      [gmap string (gmap string bool)], and the set idiom
      [map[string]struct{}] is [gset string].
    - A method that writes to its receiver returns the receiver's new
      value next to its result; a method that only reads is a function
      into its result.
    - [*CredentialsStore] may be nil only where the source tests for it
      ([AA]); there the receiver is an [option].  Everywhere else the
      receiver is a store built by [NewCredentialsStore], whose maps and
      hash cache are allocated.
    - [bcrypt.CompareHashAndPassword] (golang.org/x/crypto) and the
      [encoding/json] decoder are outside the package.  The first is a
      section variable; the second is the script of what its calls
      return.
    - The [sync.RWMutex] of [HashCache] has no counterpart: the model is
      sequential. *)

From stdpp Require Import gmap strings list fin_maps.

(** ** Constants *)

Definition AllUsers : string := "*".
Definition PermAll : string := "all".
Definition PermRemove : string := "remove".
Definition PermExecute : string := "execute".
Definition PermQuery : string := "query".
Definition PermStatus : string := "status".
Definition PermReady : string := "ready".
Definition PermBackup : string := "backup".
Definition PermLoad : string := "load".

(** Go's [error], with nil as [None] of [option error]. *)
Definition error : Type := string.

(** ** BasicAuther *)

Class BasicAuther (B : Type) : Type :=
  BasicAuth : B -> string * string * bool.

(** ** HashCache *)

Module HashCache.

Record t : Type := Build { m : gmap string (gset string) }.

Definition NewHashCache : t := {| m := ∅ |}.

Definition Check (h : t) (username hash : string) : bool :=
  match m h !! username with
  | None => false
  | Some s => bool_decide (hash ∈ s)
  end.

Definition Store (h : t) (username hash : string) : t :=
  let m1 :=
    match m h !! username with
    | None => <[username := ∅]> (m h)
    | Some _ => m h
    end in
  {| m := alter (fun s => {[hash]} ∪ s) username m1 |}.

End HashCache.

(** ** Credential and CredentialsStore *)

Module Credential.

Record t : Type := Build {
  Username : string;
  Password : string;
  Perms : list string
}.

End Credential.

Record CredentialsStore : Type := {
  store : gmap string string;
  perms : gmap string (gmap string bool);
  UseCache : bool;
  hashCache : HashCache.t
}.

Definition NewCredentialsStore : CredentialsStore :=
  {| store := ∅; perms := ∅; hashCache := HashCache.NewHashCache; UseCache := true |}.

(** The field writes the source performs. [set_UseCache] is the
    assignment to the exported field, open to every caller. *)
Definition set_hashCache (c : CredentialsStore) (h : HashCache.t) : CredentialsStore :=
  {| store := store c; perms := perms c; UseCache := UseCache c; hashCache := h |}.

Definition set_UseCache (c : CredentialsStore) (b : bool) : CredentialsStore :=
  {| store := store c; perms := perms c; UseCache := b; hashCache := hashCache c |}.

(** ** Load *)

(** One JSON object as [Decode(&cred)] sees it.  [cred] is declared
    once, outside the loop, and [encoding/json] writes only the fields
    the object has: a key that is absent (or, for the two strings,
    null) leaves the field as the previous iteration left it.  [None]
    is such a key; [j_perms = Some l] is an array (or null, with
    [l = []]). *)
Record JsonCredential : Type := {
  j_username : option string;
  j_password : option string;
  j_perms : option (list string)
}.

Inductive DecodeStep : Type :=
  | DecodeFail (e : error)
  | DecodeObject (o : JsonCredential).

(** What the decoder over a reader answers: the error of the opening
    [Token()], the outcome of each [Decode] for as long as [More()]
    holds, and the error of the closing [Token()]. *)
Record Reader : Type := {
  r_open : option error;
  r_items : list DecodeStep;
  r_close : option error
}.

(** [var cred Credential]: the zero value. *)
Definition zeroCredential : Credential.t :=
  {| Credential.Username := ""; Credential.Password := ""; Credential.Perms := [] |}.

Definition Decode (o : JsonCredential) (cred : Credential.t) : Credential.t :=
  {| Credential.Username := default (Credential.Username cred) (j_username o);
     Credential.Password := default (Credential.Password cred) (j_password o);
     Credential.Perms := default (Credential.Perms cred) (j_perms o) |}.

(** The body of the loop after a successful [Decode]. *)
Definition install (c : CredentialsStore) (cred : Credential.t) : CredentialsStore :=
  {| store := <[Credential.Username cred := Credential.Password cred]> (store c);
     perms := <[Credential.Username cred :=
                 foldl (fun (pm : gmap string bool) p => <[p := true]> pm) ∅
                       (Credential.Perms cred)]>
                (perms c);
     UseCache := UseCache c;
     hashCache := hashCache c |}.

Fixpoint Load_loop (c : CredentialsStore) (cred : Credential.t) (items : list DecodeStep)
  : CredentialsStore * option error :=
  match items with
  | [] => (c, None)
  | DecodeFail e :: _ => (c, Some e)
  | DecodeObject o :: rest =>
      let cred' := Decode o cred in
      Load_loop (install c cred') cred' rest
  end.

Definition Load (c : CredentialsStore) (r : Reader) : CredentialsStore * option error :=
  match r_open r with
  | Some e => (c, Some e)
  | None =>
      match Load_loop c zeroCredential (r_items r) with
      | (c', Some e) => (c', Some e)
      | (c', None) =>
          match r_close r with
          | Some e => (c', Some e)
          | None => (c', None)
          end
      end
  end.

(** [os.Open] either fails or gives the reader. *)
Definition NewCredentialsStoreFromFile (f : error + Reader)
  : option CredentialsStore * option error :=
  match f with
  | inl e => (None, Some e)
  | inr r => let '(c, err) := Load NewCredentialsStore r in (Some c, err)
  end.

(** ** Queries *)

Definition Password (c : CredentialsStore) (username : string) : string * bool :=
  match store c !! username with
  | Some pw => (pw, true)
  | None => ("", false)
  end.

Definition HasPerm (c : CredentialsStore) (username perm : string) : bool :=
  let direct :=
    match perms c !! username with
    | Some pm => match pm !! perm with Some _ => true | None => false end
    | None => false
    end in
  if direct then true
  else
    let viaAll :=
      match perms c !! AllUsers with
      | Some pm => match pm !! perm with Some _ => true | None => false end
      | None => false
      end in
    if viaAll then true else false.

Fixpoint HasAnyPerm (c : CredentialsStore) (username : string) (perm : list string) : bool :=
  match perm with
  | [] => false
  | p :: rest => if HasPerm c username p then true else HasAnyPerm c username rest
  end.

Definition HasPermRequest `{BasicAuther B} (c : CredentialsStore) (b : B) (perm : string) : bool :=
  let '(username, _, ok) := BasicAuth b in
  if negb ok then false else HasPerm c username perm.

Section WithBcrypt.

(** [CompareHashAndPassword hash password] is true when the Go
    function returns nil. *)
Variable CompareHashAndPassword : string -> string -> bool.

Definition Check (c : CredentialsStore) (username password : string)
  : bool * CredentialsStore :=
  match store c !! username with
  | None => (false, c)
  | Some pw =>
      if String.eqb password pw then (true, c)
      else if UseCache c && HashCache.Check (hashCache c) username password then (true, c)
      else if negb (CompareHashAndPassword pw password) then (false, c)
      else (true, set_hashCache c (HashCache.Store (hashCache c) username password))
  end.

Definition CheckRequest `{BasicAuther B} (c : CredentialsStore) (b : B)
  : bool * CredentialsStore :=
  let '(username, password, ok) := BasicAuth b in
  if negb ok then (false, c)
  else
    let '(good, c') := Check c username password in
    if negb good then (false, c') else (true, c').

Definition AA (c : option CredentialsStore) (username password perm : string)
  : bool * option CredentialsStore :=
  match c with
  | None => (true, None)
  | Some c =>
      if HasAnyPerm c AllUsers [perm; PermAll] then (true, Some c)
      else if String.eqb username "" then (false, Some c)
      else
        let '(good, c') := Check c username password in
        if negb good then (false, Some c')
        else (HasAnyPerm c' username [perm; PermAll], Some c')
  end.

End WithBcrypt.

(** ** Test doubles

    A comparator that accepts nothing, one that follows a toy hashing
    scheme (the hash of [pw] is [pw] behind a fixed prefix), and a
    request that either carries credentials or does not. *)

Definition reject_all (hash password : string) : bool := false.

Definition toy_hash (password : string) : string := "$toy$" +:+ password.

Definition toy_compare (hash password : string) : bool :=
  String.eqb hash (toy_hash password).

Inductive TestRequest : Type :=
  | Anonymous
  | WithBasicAuth (username password : string).

#[export] Instance TestRequest_BasicAuther : BasicAuther TestRequest :=
  fun b =>
    match b with
    | Anonymous => ("", "", false)
    | WithBasicAuth u p => (u, p, true)
    end.

Definition object (u p : string) (ps : list string) : DecodeStep :=
  DecodeObject {| j_username := Some u; j_password := Some p; j_perms := Some ps |}.

Definition array (items : list DecodeStep) : Reader :=
  {| r_open := None; r_items := items; r_close := None |}.

Definition loaded (items : list DecodeStep) : CredentialsStore :=
  (Load NewCredentialsStore (array items)).1.

Definition storeA := loaded [object "alice" "secret" ["query"]].
Definition storeB := loaded [object "*" "" ["status"]].
Definition storeC := loaded [object "bob" (toy_hash "pw") ["all"]].

(** ** Notions the properties are stated with *)

(** [who]'s own permission set has the key [perm]. *)
Definition holds (c : CredentialsStore) (who perm : string) : Prop :=
  ∃ pm : gmap string bool, perms c !! who = Some pm ∧ is_Some (pm !! perm).

(** The values [cred] takes after each successful [Decode], in order:
    the records the loop installs. *)
Fixpoint consumed_from (cred : Credential.t) (items : list DecodeStep) : list Credential.t :=
  match items with
  | DecodeObject o :: rest =>
      let cred' := Decode o cred in cred' :: consumed_from cred' rest
  | _ => []
  end.

Definition consumed (r : Reader) : list Credential.t :=
  match r_open r with
  | Some _ => []
  | None => consumed_from zeroCredential (r_items r)
  end.

(** The objects decoded before the first failure, as a reader that
    ends well after them. *)
Fixpoint decoded_prefix (items : list DecodeStep) : list DecodeStep :=
  match items with
  | DecodeObject o :: rest => DecodeObject o :: decoded_prefix rest
  | _ => []
  end.

Definition before_failure (r : Reader) : Reader :=
  {| r_open := None;
     r_items := match r_open r with Some _ => [] | None => decoded_prefix (r_items r) end;
     r_close := None |}.

(** The history of a hash cache: the [Store] calls made on a fresh one. *)
Definition cache_after (calls : list (string * string)) : HashCache.t :=
  foldl (fun h call => HashCache.Store h call.1 call.2) HashCache.NewHashCache calls.

(** The query operations of a (non-nil) store, and what each leaves
    behind. *)
Inductive Query : Type :=
  | QCheck (username password : string)
  | QPassword (username : string)
  | QHasPerm (username perm : string)
  | QHasAnyPerm (username : string) (perm : list string)
  | QAA (username password perm : string).

Definition after_query (cmp : string -> string -> bool) (c : CredentialsStore) (q : Query)
  : CredentialsStore :=
  match q with
  | QCheck u p => (Check cmp c u p).2
  | QAA u p perm => default c (AA cmp (Some c) u p perm).2
  | QPassword u => let _ := Password c u in c
  | QHasPerm u perm => let _ := HasPerm c u perm in c
  | QHasAnyPerm u perm => let _ := HasAnyPerm c u perm in c
  end.

Definition after_queries (cmp : string -> string -> bool) (c : CredentialsStore)
    (qs : list Query) : CredentialsStore :=
  foldl (after_query cmp) c qs.

(** [bcrypt] refuses a stored value shorter than its minimal hash size
    (59 bytes) before it looks at the password. *)
Definition rejects_short_hashes (cmp : string -> string -> bool) : Prop :=
  ∀ hash password, String.length hash < 59 → cmp hash password = false.

(** Readers the properties below are tried on: a stream that breaks
    after its first record, and one that names a user twice. *)
Definition truncated : Reader :=
  {| r_open := None;
     r_items := [object "alice" "secret" ["query"]; DecodeFail "unexpected EOF"];
     r_close := Some "EOF" |}.

Definition twice : Reader :=
  array [object "alice" "old" []; object "bob" "pw" ["status"]; object "alice" "new" ["query"]].

Definition storeE := loaded [object "" "x" ["query"]; object "alice" "secret" ["query"]].

(** The hash cache holds, for a user, only values the comparator
    accepts against that user's stored value. *)
Definition cache_sound (cmp : string -> string -> bool) (c : CredentialsStore) : Prop :=
  ∀ u x, HashCache.Check (hashCache c) u x = true →
         ∃ pw, store c !! u = Some pw ∧ cmp pw x = true.

(** The record decoded last among [creds], the zero value when there
    is none: what [cred] holds when the next [Decode] starts. *)
Definition cred_after (creds : list Credential.t) : Credential.t :=
  default zeroCredential (last creds).

(** More sample stores and readers: a user holding the sentinel alone,
    a record with the empty username and the empty password, and a
    stream whose second object has a username and nothing else. *)
Definition storeRoot := loaded [object "root" "pw" ["all"]].

Definition storeAnon := loaded [object "" "" ["query"]].

Definition storeHashed := loaded [object "bob" (toy_hash "pw") ["query"]].

Definition sparse : Reader :=
  array [object "alice" "secret" ["query"];
         DecodeObject {| j_username := Some "bob"; j_password := None; j_perms := None |}].

(** * Properties *)

(** ** Worked scenarios

    [HasAnyPerm] tests the permissions it is given and no other: the
    all-permissions sentinel counts where the caller passes it, as
    [AA] does. *)

Example scenario_A :
  (AA toy_compare (Some storeA) "alice" "secret" "query").1 = true ∧
  (AA toy_compare (Some storeA) "alice" "wrong" "query").1 = false ∧
  (AA toy_compare (Some storeA) "alice" "secret" "remove").1 = false.
Proof. vm_compute. done. Qed.

Example scenario_B :
  (AA toy_compare (Some storeB) "" "" "status").1 = true ∧
  (AA toy_compare (Some storeB) "" "" "remove").1 = false.
Proof. vm_compute. done. Qed.

Example scenario_C :
  (Check toy_compare storeC "bob" "pw").1 = true ∧
  (Check reject_all (Check toy_compare storeC "bob" "pw").2 "bob" "pw").1 = true ∧
  (Check reject_all storeC "bob" "pw").1 = false ∧
  HasAnyPerm storeC "bob" ["remove"; "execute"] = false ∧
  HasAnyPerm storeC "bob" ["remove"; "all"] = true.
Proof. vm_compute. done. Qed.

(** ** The hash cache *)

Lemma HashCache_Check_true h u x :
  HashCache.Check h u x = true ↔ ∃ s, HashCache.m h !! u = Some s ∧ x ∈ s.
Proof.
  unfold HashCache.Check. split.
  - destruct (HashCache.m h !! u) as [s|]; [|done].
    intros Hx. apply bool_decide_eq_true in Hx. eauto.
  - intros (s & -> & Hx). by apply bool_decide_eq_true.
Qed.

Lemma HashCache_Store_lookup h u x u' :
  HashCache.m (HashCache.Store h u x) !! u' =
    if decide (u = u') then Some ({[x]} ∪ default ∅ (HashCache.m h !! u))
    else HashCache.m h !! u'.
Proof.
  unfold HashCache.Store; simpl.
  destruct (decide (u = u')) as [<-|Hne].
  - rewrite lookup_alter_eq.
    destruct (HashCache.m h !! u) as [s|] eqn:E; simpl.
    + by rewrite E.
    + by rewrite lookup_insert_eq.
  - rewrite lookup_alter_ne by done.
    destruct (HashCache.m h !! u); [done|].
    by rewrite lookup_insert_ne.
Qed.

Lemma HashCache_Check_Store h u x u' x' :
  HashCache.Check (HashCache.Store h u x) u' x' = true ↔
  (u' = u ∧ x' = x) ∨ HashCache.Check h u' x' = true.
Proof.
  rewrite !HashCache_Check_true, HashCache_Store_lookup.
  destruct (decide (u = u')) as [<-|Hne].
  - split.
    + intros (s & [= <-] & Hin). apply elem_of_union in Hin as [Hin|Hin].
      * left. apply elem_of_singleton in Hin. done.
      * right. destruct (HashCache.m h !! u) as [s|]; simpl in Hin; [eauto|set_solver].
    + intros [[_ ->]|(s & Hs & Hin)]; eexists; (split; [done|]).
      * set_solver.
      * rewrite Hs. set_solver.
  - split; [by right|]. intros [[-> _]|H]; done.
Qed.

Lemma HashCache_Check_fresh u x : HashCache.Check HashCache.NewHashCache u x = false.
Proof. done. Qed.

Lemma cache_after_snoc calls u x :
  cache_after (calls ++ [(u, x)]) = HashCache.Store (cache_after calls) u x.
Proof. unfold cache_after. by rewrite foldl_app. Qed.

Lemma HashCache_Check_history calls u x :
  HashCache.Check (cache_after calls) u x = true ↔ (u, x) ∈ calls.
Proof.
  induction calls as [|[u0 x0] calls IH] using rev_ind.
  - split; [done|]. intros H. by apply elem_of_nil in H.
  - rewrite cache_after_snoc, HashCache_Check_Store, IH, elem_of_app, list_elem_of_singleton.
    split.
    + intros [[-> ->]|H]; auto.
    + intros [H|[= -> ->]]; auto.
Qed.

(** ** Permission lookup *)

Lemma holds_lookup c who perm :
  match perms c !! who with
  | Some pm => match pm !! perm with Some _ => true | None => false end
  | None => false
  end = true ↔ holds c who perm.
Proof.
  unfold holds. split.
  - destruct (perms c !! who) as [pm|]; [|done].
    destruct (pm !! perm) eqn:E; [|done]. intros _. exists pm. by rewrite E.
  - intros (pm & -> & [v ->]). done.
Qed.

Lemma HasPerm_true c u perm :
  HasPerm c u perm = true ↔ holds c u perm ∨ holds c AllUsers perm.
Proof.
  rewrite <- !holds_lookup. unfold HasPerm.
  destruct (match perms c !! u with Some _ => _ | None => _ end);
    destruct (match perms c !! AllUsers with Some _ => _ | None => _ end);
    simpl; intuition congruence.
Qed.

Lemma HasPerm_false c u perm :
  HasPerm c u perm = false ↔ ¬ holds c u perm ∧ ¬ holds c AllUsers perm.
Proof.
  rewrite <- not_true_iff_false, HasPerm_true. tauto.
Qed.

Lemma HasPerm_ext c c' u perm :
  perms c' = perms c → HasPerm c' u perm = HasPerm c u perm.
Proof. unfold HasPerm. by intros ->. Qed.

Lemma HasAnyPerm_ext c c' u ps :
  perms c' = perms c → HasAnyPerm c' u ps = HasAnyPerm c u ps.
Proof.
  intros E. induction ps as [|p ps IH]; [done|].
  simpl. by rewrite IH, (HasPerm_ext c c').
Qed.

Lemma HasAnyPerm_true c u ps :
  HasAnyPerm c u ps = true ↔ ∃ p, p ∈ ps ∧ HasPerm c u p = true.
Proof.
  induction ps as [|p ps IH]; simpl.
  - split; [done|]. intros (p & Hp & _). by apply elem_of_nil in Hp.
  - destruct (HasPerm c u p) eqn:E.
    + split; [|done]. intros _. exists p. split; [left|done].
    + rewrite IH. split.
      * intros (q & Hq & Hh). exists q. split; [by right|done].
      * intros (q & Hq & Hh). apply elem_of_cons in Hq as [->|Hq]; [congruence|eauto].
Qed.

Lemma HasAnyPerm_pair c u perm :
  HasAnyPerm c u [perm; PermAll] = HasPerm c u perm || HasPerm c u PermAll.
Proof. simpl. by destruct (HasPerm c u perm), (HasPerm c u PermAll). Qed.

(** ** Password check: what it leaves untouched *)

Section CheckFacts.

Variable cmp : string → string → bool.

Lemma Check_store c u p : store (Check cmp c u p).2 = store c.
Proof.
  unfold Check. destruct (store c !! u); [|done].
  repeat case_match; done.
Qed.

Lemma Check_perms c u p : perms (Check cmp c u p).2 = perms c.
Proof.
  unfold Check. destruct (store c !! u); [|done].
  repeat case_match; done.
Qed.

Lemma Check_UseCache c u p : UseCache (Check cmp c u p).2 = UseCache c.
Proof.
  unfold Check. destruct (store c !! u); [|done].
  repeat case_match; done.
Qed.

(** The hash cache only grows. *)
Lemma Check_cache_mono c u p u' x :
  HashCache.Check (hashCache c) u' x = true →
  HashCache.Check (hashCache (Check cmp c u p).2) u' x = true.
Proof.
  intros Hx. unfold Check. destruct (store c !! u); [|done].
  repeat case_match; try done.
  simpl. apply HashCache_Check_Store. by right.
Qed.

Lemma AA_some c u p perm : ∃ c', (AA cmp (Some c) u p perm).2 = Some c'.
Proof.
  unfold AA. repeat case_match; eauto.
Qed.

Lemma AA_after c u p perm :
  (AA cmp (Some c) u p perm).2 = Some c ∨
  (AA cmp (Some c) u p perm).2 = Some (Check cmp c u p).2.
Proof.
  unfold AA. destruct (Check cmp c u p) as [good c'] eqn:E.
  repeat case_match; simpl; auto.
Qed.

Lemma after_query_cases c q :
  after_query cmp c q = c ∨ ∃ u p, after_query cmp c q = (Check cmp c u p).2.
Proof.
  destruct q as [u p|u|u perm|u ps|u p perm]; unfold after_query; eauto.
  destruct (AA_after c u p perm) as [-> | ->]; simpl; eauto.
Qed.

Lemma after_queries_frame c qs :
  store (after_queries cmp c qs) = store c ∧
  perms (after_queries cmp c qs) = perms c ∧
  UseCache (after_queries cmp c qs) = UseCache c.
Proof.
  revert c. induction qs as [|q qs IH]; intros c; [done|].
  unfold after_queries in *. simpl.
  destruct (IH (after_query cmp c q)) as (-> & -> & ->).
  destruct (after_query_cases c q) as [-> | (u & p & ->)]; [done|].
  by rewrite Check_store, Check_perms, Check_UseCache.
Qed.

Lemma after_queries_cache_mono c qs u x :
  HashCache.Check (hashCache c) u x = true →
  HashCache.Check (hashCache (after_queries cmp c qs)) u x = true.
Proof.
  revert c. induction qs as [|q qs IH]; intros c Hx; [done|].
  unfold after_queries in *. simpl. apply IH.
  destruct (after_query_cases c q) as [-> | (u' & p' & ->)]; [done|].
  by apply Check_cache_mono.
Qed.

End CheckFacts.

(** ** Authenticate and authorize *)

Lemma wildcard_open c perm :
  HasAnyPerm c AllUsers [perm; PermAll] = true ↔
  holds c AllUsers perm ∨ holds c AllUsers PermAll.
Proof.
  rewrite HasAnyPerm_pair, orb_true_iff, !HasPerm_true. tauto.
Qed.

Lemma wildcard_closed c perm :
  ¬ (holds c AllUsers perm ∨ holds c AllUsers PermAll) →
  HasAnyPerm c AllUsers [perm; PermAll] = false.
Proof.
  intros Hn. apply not_true_iff_false. by rewrite wildcard_open.
Qed.

Lemma eqb_empty_false u : u ≠ "" → String.eqb u "" = false.
Proof. intros Hu. by apply String.eqb_neq. Qed.

(** C1. [AA] decides in this order: a nil store grants; else a
    wildcard identity holding [perm] or the all-permissions sentinel
    grants, with no authentication (the store, hash cache included, is
    returned as it was, whatever the comparator); else an empty
    username is denied; else a failed [Check] is denied; else the
    answer is whether the username, directly or through the wildcard,
    holds [perm] or the sentinel.  The nil test comes before any
    lookup: with no store there is nothing to look up in. *)
Theorem AA_decision_order (cmp : string → string → bool) (username password perm : string) :
  AA cmp None username password perm = (true, None) ∧
  ∀ c : CredentialsStore,
    (holds c AllUsers perm ∨ holds c AllUsers PermAll →
       AA cmp (Some c) username password perm = (true, Some c)) ∧
    (¬ (holds c AllUsers perm ∨ holds c AllUsers PermAll) →
       (username = "" → AA cmp (Some c) username password perm = (false, Some c)) ∧
       (username ≠ "" → (Check cmp c username password).1 = false →
          (AA cmp (Some c) username password perm).1 = false) ∧
       (username ≠ "" → (Check cmp c username password).1 = true →
          ((AA cmp (Some c) username password perm).1 = true ↔
           (holds c username perm ∨ holds c AllUsers perm) ∨
           (holds c username PermAll ∨ holds c AllUsers PermAll)))).
Proof.
  split; [done|]. intros c. split.
  - intros Hopen. apply wildcard_open in Hopen. unfold AA. by rewrite Hopen.
  - intros Hclosed. apply wildcard_closed in Hclosed.
    unfold AA. rewrite Hclosed. split; [|split].
    + by intros ->.
    + intros Hu Hbad. rewrite (eqb_empty_false _ Hu).
      destruct (Check cmp c username password) as [good c']. simpl in Hbad. by subst good.
    + intros Hu Hgood. rewrite (eqb_empty_false _ Hu).
      pose proof (Check_perms cmp c username password) as Hp.
      destruct (Check cmp c username password) as [good c']. simpl in Hgood, Hp. subst good.
      simpl negb. cbv iota. unfold fst.
      rewrite (HasAnyPerm_ext c c') by done.
      rewrite HasAnyPerm_pair, orb_true_iff, !HasPerm_true. tauto.
Qed.

(** C2. [Check] short-circuits in this order: an unknown username is
    refused; a password equal to the stored value is accepted; with
    [UseCache] on, a hash-cache hit is accepted; otherwise (cache off,
    or a miss) the hash comparison of the stored value against the
    password is the answer, and on success the pair is stored in the
    hash cache: [HashCache.Check] on the store returned finds the
    pair, and every pair it found before.  On failure, as in the first
    three outcomes, the store is left as it was. *)
Theorem Check_order (cmp : string → string → bool) (c : CredentialsStore)
    (username password : string) :
  (store c !! username = None → Check cmp c username password = (false, c)) ∧
  (∀ pw, store c !! username = Some pw →
     (password = pw → Check cmp c username password = (true, c)) ∧
     (password ≠ pw → UseCache c = true →
        HashCache.Check (hashCache c) username password = true →
        Check cmp c username password = (true, c)) ∧
     (password ≠ pw →
        UseCache c = false ∨ HashCache.Check (hashCache c) username password = false →
        Check cmp c username password =
          (if cmp pw password
           then (true, set_hashCache c (HashCache.Store (hashCache c) username password))
           else (false, c)) ∧
        (cmp pw password = true →
           HashCache.Check (hashCache (Check cmp c username password).2)
             username password = true ∧
           ∀ u x, HashCache.Check (hashCache c) u x = true →
                  HashCache.Check (hashCache (Check cmp c username password).2) u x
                    = true) ∧
        (cmp pw password = false → Check cmp c username password = (false, c)))).
Proof.
  split; [intros Hs; unfold Check; by rewrite Hs|].
  intros pw Hs. split; [|split].
  - intros ->. unfold Check. by rewrite Hs, String.eqb_refl.
  - intros Hne Hon Hhit. apply String.eqb_neq in Hne.
    unfold Check. by rewrite Hs, Hne, Hon, Hhit.
  - intros Hne Hmiss.
    assert (Check cmp c username password =
              if cmp pw password
              then (true, set_hashCache c (HashCache.Store (hashCache c) username password))
              else (false, c)) as Heq.
    { apply String.eqb_neq in Hne. unfold Check. rewrite Hs, Hne.
      assert (UseCache c && HashCache.Check (hashCache c) username password = false) as ->.
      { destruct Hmiss as [-> | ->]; [done|apply andb_false_r]. }
      by destruct (cmp pw password). }
    split; [done|]. rewrite Heq. split; intros ->; [|done].
    simpl. split.
    + apply HashCache_Check_Store. by left.
    + intros u x Hx. apply HashCache_Check_Store. by right.
Qed.

(** C5. A permission in the wildcard identity's set is held by every
    username, known to the store or not; a permission in a username's
    own set is held by that username; and the answer reads the
    permission mapping alone, so no password, stored or cached, bears
    on it. *)
Theorem HasPerm_grants (c : CredentialsStore) (perm : string) :
  (holds c AllUsers perm → ∀ anyUser, HasPerm c anyUser perm = true) ∧
  (∀ username, holds c username perm → HasPerm c username perm = true) ∧
  (∀ username c', perms c' = perms c → HasPerm c' username perm = HasPerm c username perm).
Proof.
  split; [|split].
  - intros Hw anyUser. apply HasPerm_true. by right.
  - intros username Hu. apply HasPerm_true. by left.
  - intros username c' E. by apply HasPerm_ext.
Qed.

(** C6. With a wildcard identity that holds neither [perm] nor the
    all-permissions sentinel, [AA] with the empty username is false for
    every password, whatever the store has under the empty username. *)
Theorem AA_empty_username (cmp : string → string → bool) (c : CredentialsStore)
    (password perm : string) :
  ¬ holds c AllUsers perm →
  ¬ holds c AllUsers PermAll →
  AA cmp (Some c) "" password perm = (false, Some c).
Proof.
  intros H1 H2. unfold AA. rewrite wildcard_closed by tauto. done.
Qed.

Lemma Check_cache_hit cmp c u p pw :
  store c !! u = Some pw → p ≠ pw → UseCache c = true →
  HashCache.Check (hashCache c) u p = true →
  Check cmp c u p = (true, c).
Proof.
  intros Hs Hne Hon Hhit. unfold Check. rewrite Hs, Hon, Hhit.
  apply String.eqb_neq in Hne. by rewrite Hne.
Qed.

Lemma Check_miss cmp c u p pw :
  store c !! u = Some pw → p ≠ pw →
  UseCache c = false ∨ HashCache.Check (hashCache c) u p = false →
  Check cmp c u p =
    if cmp pw p
    then (true, set_hashCache c (HashCache.Store (hashCache c) u p))
    else (false, c).
Proof.
  intros Hs Hne Hmiss. unfold Check. rewrite Hs.
  apply String.eqb_neq in Hne. rewrite Hne.
  assert (UseCache c && HashCache.Check (hashCache c) u p = false) as ->.
  { destruct Hmiss as [-> | ->]; [done|apply andb_false_r]. }
  by destruct (cmp pw p).
Qed.

Lemma Check_hash_path cmp c u p pw :
  store c !! u = Some pw → p ≠ pw →
  UseCache c = false ∨ HashCache.Check (hashCache c) u p = false →
  cmp pw p = true →
  Check cmp c u p = (true, set_hashCache c (HashCache.Store (hashCache c) u p)).
Proof.
  intros Hs Hne Hmiss Hok. by rewrite (Check_miss cmp c u p pw), Hok.
Qed.

Lemma Check_true_inv cmp c u x :
  (Check cmp c u x).1 = true →
  ∃ pw, store c !! u = Some pw ∧
        (x = pw ∨ HashCache.Check (hashCache c) u x = true ∨ cmp pw x = true).
Proof.
  unfold Check. destruct (store c !! u) as [pw|]; [|done].
  intros H. exists pw. split; [done|].
  destruct (String.eqb x pw) eqn:E1; [left; by apply String.eqb_eq|].
  destruct (HashCache.Check (hashCache c) u x); [auto|].
  destruct (cmp pw x); [auto|]. by rewrite andb_false_r in H.
Qed.

(** C7, as amended. [Check] refuses a candidate that differs from the
    stored value, is not in the user's hash cache, and fails the hash
    comparison against the stored value; and whatever it accepts is the
    stored value, a cached value, or a value the hash comparison
    accepts for the stored value. *)
Theorem Check_rejects (cmp : string → string → bool) (c : CredentialsStore) (u : string) :
  (∀ pw wrong,
     store c !! u = Some pw → wrong ≠ pw →
     HashCache.Check (hashCache c) u wrong = false →
     cmp pw wrong = false →
     Check cmp c u wrong = (false, c)) ∧
  (∀ x, (Check cmp c u x).1 = true →
     ∃ pw, store c !! u = Some pw ∧
           (x = pw ∨ HashCache.Check (hashCache c) u x = true ∨ cmp pw x = true)).
Proof.
  split; [|apply Check_true_inv].
  intros pw wrong Hs Hne Hmiss Hbad.
  rewrite (Check_miss cmp c u wrong pw) by auto. by rewrite Hbad.
Qed.

(** C8. A hash cache answers true exactly for the pairs stored in it
    since it was created, and a later [Store] removes none.  So once
    [Check] has accepted a pair through the hash comparison, then after
    any further queries, and with [UseCache] on, [Check] accepts the
    pair on the cache test: the password still differs from the stored
    value, the cache test holds, and the answer is true under every
    comparator, one that accepts nothing included. *)
Theorem hash_cache_round_trip :
  (∀ calls u x, HashCache.Check (cache_after calls) u x = true ↔ (u, x) ∈ calls) ∧
  (∀ h u x u' x',
     HashCache.Check h u x = true →
     HashCache.Check (HashCache.Store h u' x') u x = true) ∧
  (∀ (cmp : string → string → bool) c u p pw,
     store c !! u = Some pw → p ≠ pw →
     UseCache c = false ∨ HashCache.Check (hashCache c) u p = false →
     cmp pw p = true →
     (Check cmp c u p).1 = true ∧
     ∀ qs (cmp' : string → string → bool),
       store (after_queries cmp (Check cmp c u p).2 qs) !! u = Some pw ∧
       HashCache.Check (hashCache (after_queries cmp (Check cmp c u p).2 qs)) u p = true ∧
       Check cmp' (set_UseCache (after_queries cmp (Check cmp c u p).2 qs) true) u p =
         (true, set_UseCache (after_queries cmp (Check cmp c u p).2 qs) true)).
Proof.
  split; [apply HashCache_Check_history|]. split.
  { intros h u x u' x' Hx. apply HashCache_Check_Store. by right. }
  intros cmp c u p pw Hs Hne Hmiss Hok.
  rewrite (Check_hash_path cmp c u p pw) by done.
  split; [done|]. intros qs cmp'. cbn [snd].
  set (c1 := set_hashCache c (HashCache.Store (hashCache c) u p)).
  destruct (after_queries_frame cmp c1 qs) as (Hst & _ & _).
  assert (HashCache.Check (hashCache (after_queries cmp c1 qs)) u p = true) as Hhit.
  { apply after_queries_cache_mono. simpl. apply HashCache_Check_Store. by left. }
  assert (store (after_queries cmp c1 qs) !! u = Some pw) as Hs2 by (by rewrite Hst).
  split; [done|]. split; [done|].
  by apply (Check_cache_hit cmp' _ u p pw).
Qed.

(** C9. A request whose [BasicAuth] reports no credentials is refused
    by [HasPermRequest] for every permission, also one the wildcard
    identity holds, for which [HasPerm] answers true for every
    username. *)
Theorem HasPermRequest_absent `{BasicAuther B} (c : CredentialsStore) (b : B)
    (username password : string) :
  BasicAuth b = (username, password, false) →
  ∀ perm,
    HasPermRequest c b perm = false ∧
    (holds c AllUsers perm → ∀ anyUser, HasPerm c anyUser perm = true).
Proof.
  intros Hb perm. split.
  - unfold HasPermRequest. by rewrite Hb.
  - intros Hw anyUser. apply HasPerm_true. by right.
Qed.

(** C10. [UseCache] guards the reading of the hash cache only: with it
    off, a [Check] that succeeds through the hash comparison still
    stores the pair, so the cache answers true for it afterwards.  And
    a query ([Check], [Password], [HasPerm], [HasAnyPerm], [AA]) leaves
    the password mapping, the permission mapping and [UseCache] as they
    were. *)
Theorem queries_write_the_hash_cache_only (cmp : string → string → bool)
    (c : CredentialsStore) :
  (∀ u p pw,
     UseCache c = false → store c !! u = Some pw → p ≠ pw → cmp pw p = true →
     (Check cmp c u p).1 = true ∧
     HashCache.Check (hashCache (Check cmp c u p).2) u p = true) ∧
  (∀ q,
     store (after_query cmp c q) = store c ∧
     perms (after_query cmp c q) = perms c ∧
     UseCache (after_query cmp c q) = UseCache c).
Proof.
  split.
  - intros u p pw Hoff Hs Hne Hok.
    rewrite (Check_hash_path cmp c u p pw) by auto.
    split; [done|]. simpl. apply HashCache_Check_Store. by left.
  - intros q. apply (after_queries_frame cmp c [q]).
Qed.

(** ** Load *)

Lemma Load_loop_installs items : ∀ c cred,
  (Load_loop c cred items).1 = foldl install c (consumed_from cred items).
Proof.
  induction items as [|[e|o] rest IH]; intros c cred; simpl; [done..|].
  apply IH.
Qed.

Lemma Load_loop_prefix items : ∀ c cred,
  Load_loop c cred (decoded_prefix items) = ((Load_loop c cred items).1, None).
Proof.
  induction items as [|[e|o] rest IH]; intros c cred; simpl; [done..|].
  apply IH.
Qed.

Lemma Load_installs c r : (Load c r).1 = foldl install c (consumed r).
Proof.
  unfold Load, consumed. destruct (r_open r); [done|].
  rewrite <- Load_loop_installs.
  destruct (Load_loop c zeroCredential (r_items r)) as [c' [e|]]; [done|].
  by destruct (r_close r).
Qed.

Lemma Load_before_failure c r : Load c (before_failure r) = ((Load c r).1, None).
Proof.
  unfold Load, before_failure; simpl. destruct (r_open r); [done|].
  rewrite Load_loop_prefix.
  destruct (Load_loop c zeroCredential (r_items r)) as [c' [e|]]; [done|].
  by destruct (r_close r).
Qed.

Lemma install_store_other c cr u :
  Credential.Username cr ≠ u → store (install c cr) !! u = store c !! u.
Proof. intros Hne. simpl. by rewrite lookup_insert_ne. Qed.

Lemma install_perms_other c cr u :
  Credential.Username cr ≠ u → perms (install c cr) !! u = perms c !! u.
Proof. intros Hne. simpl. by rewrite lookup_insert_ne. Qed.

Lemma installs_other l : ∀ c u,
  u ∉ Credential.Username <$> l →
  store (foldl install c l) !! u = store c !! u ∧
  perms (foldl install c l) !! u = perms c !! u.
Proof.
  induction l as [|cr l IH]; intros c u Hu; [done|].
  rewrite fmap_cons, not_elem_of_cons in Hu. destruct Hu as [Hne Hu].
  simpl. destruct (IH (install c cr) u Hu) as [-> ->].
  by rewrite install_store_other, install_perms_other.
Qed.

Lemma perm_set_lookup (ps : list string) : ∀ (pm : gmap string bool) q,
  is_Some (foldl (fun (pm : gmap string bool) p => <[p := true]> pm) pm ps !! q) ↔
  q ∈ ps ∨ is_Some (pm !! q).
Proof.
  induction ps as [|p ps IH]; intros pm q; simpl.
  - split; [by right|]. intros [H|H]; [by apply elem_of_nil in H|done].
  - rewrite IH, elem_of_cons, lookup_insert_is_Some.
    assert (q = p ↔ p = q) by (split; congruence).
    destruct (decide (p = q)); tauto.
Qed.

(** The record that is the last of its username decides what the store
    has for that username. *)
Lemma installs_last c l1 cr l2 :
  Credential.Username cr ∉ Credential.Username <$> l2 →
  store (foldl install c (l1 ++ cr :: l2)) !! Credential.Username cr
    = Some (Credential.Password cr) ∧
  ∀ perm, holds (foldl install c (l1 ++ cr :: l2)) (Credential.Username cr) perm
          ↔ perm ∈ Credential.Perms cr.
Proof.
  intros Hlast. rewrite foldl_app. simpl.
  destruct (installs_other l2 (install (foldl install c l1) cr) _ Hlast) as [Hs Hp].
  split.
  - rewrite Hs. simpl. by rewrite lookup_insert_eq.
  - intros perm. unfold holds. rewrite Hp. simpl. rewrite lookup_insert_eq.
    split.
    + intros (pm & [= <-] & Hin). apply perm_set_lookup in Hin as [Hin|Hin]; [done|].
      rewrite lookup_empty in Hin. by destruct Hin.
    + intros Hin. eexists. split; [done|]. apply perm_set_lookup. by left.
Qed.

Lemma Check_plain cmp c u pw :
  store c !! u = Some pw → Check cmp c u pw = (true, c).
Proof. intros Hs. unfold Check. by rewrite Hs, String.eqb_refl. Qed.

(** C3, as stated, fails: the stream [truncated] breaks on its second
    element, [Load] (and [NewCredentialsStoreFromFile] with it) returns
    the error, and the store it was loading into answers for the
    record decoded before the break. *)
Lemma Load_failure_serves_decoded_records :
  ∃ c' e,
    Load NewCredentialsStore truncated = (c', Some e) ∧
    NewCredentialsStoreFromFile (inr truncated) = (Some c', Some e) ∧
    Password c' "alice" = ("secret", true) ∧
    (Check reject_all c' "alice" "secret").1 = true ∧
    HasPerm c' "alice" "query" = true.
Proof.
  exists storeA, "unexpected EOF". vm_compute. done.
Qed.

(** C3, as amended. A failed [Load] returns its error and undoes
    nothing: the store is left as a successful load of the records
    decoded before the failure leaves it, each of them installed in
    order.  So a record decoded before the failure, when it is the last
    of its username among them, is what [Password], [Check] and
    [HasPerm] answer from; nothing at or after the failure is
    installed. *)
Theorem Load_failure_keeps_decoded_records (c : CredentialsStore) (r : Reader)
    (c' : CredentialsStore) (e : error) :
  Load c r = (c', Some e) →
  Load c (before_failure r) = (c', None) ∧
  c' = foldl install c (consumed r) ∧
  ∀ (cmp : string → string → bool) l1 cr l2,
    consumed r = l1 ++ cr :: l2 →
    Credential.Username cr ∉ Credential.Username <$> l2 →
    Password c' (Credential.Username cr) = (Credential.Password cr, true) ∧
    Check cmp c' (Credential.Username cr) (Credential.Password cr) = (true, c') ∧
    ∀ perm, perm ∈ Credential.Perms cr → HasPerm c' (Credential.Username cr) perm = true.
Proof.
  intros HL.
  assert ((Load c r).1 = c') as Hfst by (by rewrite HL).
  split; [by rewrite Load_before_failure, Hfst|].
  rewrite Load_installs in Hfst. split; [done|].
  intros cmp l1 cr l2 Hcons Hlast. subst c'. rewrite Hcons.
  destruct (installs_last c l1 cr l2 Hlast) as [Hs Hp].
  split; [|split].
  - unfold Password. by rewrite Hs.
  - by apply Check_plain.
  - intros perm Hin. apply HasPerm_true. left. by apply Hp.
Qed.

(** C4, as stated, fails: [twice] names alice in two records, the load
    succeeds, and the store keeps the later password.  [Check] with the
    earlier one then rests on the hash comparison against the later,
    which no comparator that refuses short hashes accepts. *)
Lemma Load_then_Check_of_a_replaced_record :
  ¬ (∀ cmp : string → string → bool,
       rejects_short_hashes cmp →
       ∀ c r c' cr,
         Load c r = (c', None) →
         cr ∈ consumed r →
         (Check cmp c' (Credential.Username cr) (Credential.Password cr)).1 = true).
Proof.
  intros H.
  specialize (H reject_all (λ _ _ _, eq_refl) NewCredentialsStore twice
                (Load NewCredentialsStore twice).1
                (Credential.Build "alice" "old" [])).
  assert (Load NewCredentialsStore twice = ((Load NewCredentialsStore twice).1, None)) as HL
    by (vm_compute; reflexivity).
  specialize (H HL). clear HL.
  assert (Credential.Build "alice" "old" [] ∈ consumed twice) as Hin
    by (unfold consumed, twice, array, object; simpl; left).
  specialize (H Hin). vm_compute in H. discriminate H.
Qed.

(** C4, as amended. After a successful [Load], [Check] accepts the
    username and password of every consumed record that no later
    record of the stream replaces (the last record of each username),
    on the comparison with the stored value and so under every
    comparator. *)
Theorem Load_then_Check (cmp : string → string → bool) (c : CredentialsStore) (r : Reader)
    (c' : CredentialsStore) (l1 : list Credential.t) (cr : Credential.t)
    (l2 : list Credential.t) :
  Load c r = (c', None) →
  consumed r = l1 ++ cr :: l2 →
  Credential.Username cr ∉ Credential.Username <$> l2 →
  Check cmp c' (Credential.Username cr) (Credential.Password cr) = (true, c').
Proof.
  intros HL Hcons Hlast.
  assert ((Load c r).1 = c') as Hfst by (by rewrite HL).
  rewrite Load_installs, Hcons in Hfst. subst c'.
  apply Check_plain. by apply installs_last.
Qed.

(** C7, as stated, fails: [storeC] holds for bob the (toy) hash of
    "pw"; the candidate "pw" differs from the stored value, the hash
    cache is empty, and [Check] accepts it on the hash comparison. *)
Lemma Check_accepts_the_hashed_password :
  ¬ (∀ (cmp : string → string → bool) c u pw wrong,
       store c !! u = Some pw →
       wrong ≠ pw →
       HashCache.Check (hashCache c) u wrong = false →
       (Check cmp c u wrong).1 = false).
Proof.
  intros H.
  specialize (H toy_compare storeC "bob" (toy_hash "pw") "pw").
  assert ((Check toy_compare storeC "bob" "pw").1 = false) as Hfalse.
  { apply H; [by vm_compute|by vm_compute|by vm_compute]. }
  vm_compute in Hfalse. discriminate Hfalse.
Qed.

(** ** The properties at work on the sample stores *)

Lemma holds_here c who perm pm v :
  perms c !! who = Some pm → pm !! perm = Some v → holds c who perm.
Proof. intros Hw Hp. exists pm. split; [done|by exists v]. Qed.

Lemma holds_nobody c who perm : perms c !! who = None → ¬ holds c who perm.
Proof. intros Hw (pm & Hpm & _). congruence. Qed.

Lemma holds_nothing c who perm pm :
  perms c !! who = Some pm → pm !! perm = None → ¬ holds c who perm.
Proof. intros Hw Hp (pm' & Hpm & [v Hv]). congruence. Qed.

Lemma AA_decision_order_witness :
  (AA toy_compare (Some storeA) "alice" "secret" "query").1 = true.
Proof.
  destruct (proj2 (AA_decision_order toy_compare "alice" "secret" "query") storeA)
    as [_ Hclosed].
  destruct Hclosed as (_ & _ & Hauth).
  - intros [Hw | Hw]; revert Hw; apply holds_nobody; vm_compute; reflexivity.
  - apply Hauth; [discriminate | vm_compute; reflexivity |].
    left. left. eapply holds_here; vm_compute; reflexivity.
Defined.

Lemma Check_order_witness :
  Check toy_compare storeC "bob" "pw" =
    (true, set_hashCache storeC (HashCache.Store (hashCache storeC) "bob" "pw")) ∧
  HashCache.Check (hashCache storeC) "bob" "pw" = false ∧
  HashCache.Check (hashCache (Check toy_compare storeC "bob" "pw").2) "bob" "pw" = true.
Proof.
  destruct (proj2 (Check_order toy_compare storeC "bob" "pw") (toy_hash "pw"))
    as (_ & _ & Hmiss).
  - vm_compute; reflexivity.
  - assert ("pw" ≠ toy_hash "pw") as Hne by (vm_compute; discriminate).
    assert (UseCache storeC = false ∨ HashCache.Check (hashCache storeC) "bob" "pw" = false)
      as Hcold by (right; vm_compute; reflexivity).
    destruct (Hmiss Hne Hcold) as (Hanswer & Hstored & _).
    split; [rewrite Hanswer; vm_compute; reflexivity|].
    split; [vm_compute; reflexivity|].
    assert (toy_compare (toy_hash "pw") "pw" = true) as Hok by (vm_compute; reflexivity).
    exact (proj1 (Hstored Hok)).
Defined.

Lemma Load_failure_keeps_decoded_records_witness :
  Load NewCredentialsStore (before_failure truncated) = (storeA, None) ∧
  Password storeA "alice" = ("secret", true).
Proof.
  destruct (Load_failure_keeps_decoded_records
              NewCredentialsStore truncated storeA "unexpected EOF")
    as (Hprefix & _ & Hserved).
  - vm_compute; reflexivity.
  - split; [exact Hprefix|].
    apply (Hserved reject_all [] (Credential.Build "alice" "secret" ["query"]) []).
    + vm_compute; reflexivity.
    + apply not_elem_of_nil.
Defined.

Lemma Load_then_Check_witness :
  Check reject_all (Load NewCredentialsStore twice).1 "bob" "pw" =
    (true, (Load NewCredentialsStore twice).1).
Proof.
  apply (Load_then_Check reject_all NewCredentialsStore twice
           (Load NewCredentialsStore twice).1
           [Credential.Build "alice" "old" []]
           (Credential.Build "bob" "pw" ["status"])
           [Credential.Build "alice" "new" ["query"]]).
  - vm_compute; reflexivity.
  - vm_compute; reflexivity.
  - simpl. intros Hin. apply list_elem_of_singleton in Hin. discriminate Hin.
Defined.

Lemma HasPerm_grants_witness :
  HasPerm storeB "nobody" "status" = true ∧ HasPerm storeA "alice" "query" = true.
Proof.
  split.
  - apply (proj1 (HasPerm_grants storeB "status")).
    eapply holds_here; vm_compute; reflexivity.
  - apply (proj1 (proj2 (HasPerm_grants storeA "query"))).
    eapply holds_here; vm_compute; reflexivity.
Defined.

Lemma AA_empty_username_witness :
  Password storeE "" = ("x", true) ∧
  AA toy_compare (Some storeE) "" "x" "query" = (false, Some storeE).
Proof.
  split; [vm_compute; reflexivity|].
  apply AA_empty_username; apply holds_nobody; vm_compute; reflexivity.
Defined.

Lemma Check_rejects_witness :
  Check toy_compare storeC "bob" "guess" = (false, storeC).
Proof.
  apply (proj1 (Check_rejects toy_compare storeC "bob") (toy_hash "pw") "guess").
  - vm_compute; reflexivity.
  - vm_compute; discriminate.
  - vm_compute; reflexivity.
  - vm_compute; reflexivity.
Defined.

Lemma hash_cache_round_trip_witness :
  Check reject_all
    (set_UseCache
       (after_queries toy_compare (Check toy_compare storeC "bob" "pw").2
          [QHasPerm "bob" "all"; QCheck "bob" "guess"; QAA "bob" "pw" "remove"])
       true)
    "bob" "pw"
  = (true,
     set_UseCache
       (after_queries toy_compare (Check toy_compare storeC "bob" "pw").2
          [QHasPerm "bob" "all"; QCheck "bob" "guess"; QAA "bob" "pw" "remove"])
       true).
Proof.
  destruct (proj2 (proj2 hash_cache_round_trip)
              toy_compare storeC "bob" "pw" (toy_hash "pw"))
    as [_ Hlater].
  - vm_compute; reflexivity.
  - vm_compute; discriminate.
  - right. vm_compute; reflexivity.
  - vm_compute; reflexivity.
  - apply Hlater.
Defined.

Lemma HasPermRequest_absent_witness :
  HasPermRequest storeB Anonymous "status" = false ∧
  HasPerm storeB "nobody" "status" = true.
Proof.
  destruct (HasPermRequest_absent storeB Anonymous "" "" eq_refl "status")
    as [Hrefused Hdirect].
  split; [exact Hrefused|].
  apply Hdirect. eapply holds_here; vm_compute; reflexivity.
Defined.

Lemma queries_write_the_hash_cache_only_witness :
  HashCache.Check (hashCache (set_UseCache storeC false)) "bob" "pw" = false ∧
  HashCache.Check
    (hashCache (Check toy_compare (set_UseCache storeC false) "bob" "pw").2) "bob" "pw"
  = true.
Proof.
  split; [vm_compute; reflexivity|].
  apply (proj1 (queries_write_the_hash_cache_only toy_compare (set_UseCache storeC false))
           "bob" "pw" (toy_hash "pw")).
  - reflexivity.
  - vm_compute; reflexivity.
  - vm_compute; discriminate.
  - vm_compute; reflexivity.
Defined.

(** * Further properties of the package *)

(** ** The hash cache as a set of pairs *)

Lemma HashCache_ext (h1 h2 : HashCache.t) :
  (∀ u, HashCache.m h1 !! u = HashCache.m h2 !! u) → h1 = h2.
Proof.
  destruct h1 as [m1], h2 as [m2]; simpl. intros E. f_equal. by apply map_eq.
Qed.

Lemma HashCache_Store_idem h u x :
  HashCache.Store (HashCache.Store h u x) u x = HashCache.Store h u x.
Proof.
  apply HashCache_ext. intros u'. rewrite !HashCache_Store_lookup.
  destruct (decide (u = u')) as [<-|Hne]; [|done].
  rewrite decide_True by done. simpl. f_equal.
  by rewrite (assoc_L (∪)), union_idemp_L.
Qed.

Lemma HashCache_Store_comm h u x u' x' :
  HashCache.Store (HashCache.Store h u x) u' x' =
  HashCache.Store (HashCache.Store h u' x') u x.
Proof.
  apply HashCache_ext. intros v. rewrite !HashCache_Store_lookup.
  repeat case_decide; simplify_eq; try done.
  simpl. f_equal.
  by rewrite !(assoc_L (∪)), (comm_L (∪) {[x']} {[x]}).
Qed.

Lemma HashCache_Check_Store_other h u x u' x' :
  (u', x') ≠ (u, x) →
  HashCache.Check (HashCache.Store h u x) u' x' = HashCache.Check h u' x'.
Proof.
  intros Hne.
  destruct (HashCache.Check h u' x') eqn:E.
  - apply HashCache_Check_Store. by right.
  - apply not_true_iff_false. rewrite HashCache_Check_Store.
    intros [[-> ->]|H]; [done|congruence].
Qed.

(** X1. [HashCache.Store] behaves as the insertion of a pair into a
    set: storing a pair again changes nothing, the order of two stores
    does not matter, and a store changes the answer of
    [HashCache.Check] for the stored pair only. *)
Theorem HashCache_Store_is_set_insertion (h : HashCache.t) (u x : string) :
  HashCache.Store (HashCache.Store h u x) u x = HashCache.Store h u x ∧
  (∀ u' x', HashCache.Store (HashCache.Store h u x) u' x' =
            HashCache.Store (HashCache.Store h u' x') u x) ∧
  HashCache.Check (HashCache.Store h u x) u x = true ∧
  (∀ u' x', (u', x') ≠ (u, x) →
            HashCache.Check (HashCache.Store h u x) u' x' = HashCache.Check h u' x').
Proof.
  split; [apply HashCache_Store_idem|].
  split; [intros; apply HashCache_Store_comm|].
  split; [apply HashCache_Check_Store; by left|].
  intros u' x'. apply HashCache_Check_Store_other.
Qed.

(** ** Check, once more *)

Lemma Check_unknown cmp c u p : store c !! u = None → Check cmp c u p = (false, c).
Proof. intros Hs. unfold Check. by rewrite Hs. Qed.

Lemma Check_again cmp c u p : Check cmp (Check cmp c u p).2 u p = Check cmp c u p.
Proof.
  destruct (store c !! u) as [pw|] eqn:Hs.
  2: { rewrite (Check_unknown cmp c u p Hs). by apply Check_unknown. }
  destruct (decide (p = pw)) as [->|Hne].
  { rewrite (Check_plain cmp c u pw Hs). by apply Check_plain. }
  destruct (UseCache c && HashCache.Check (hashCache c) u p) eqn:Hhit.
  { apply andb_true_iff in Hhit as [Hon Hhit].
    rewrite (Check_cache_hit cmp c u p pw) by done. by apply (Check_cache_hit cmp c u p pw). }
  assert (UseCache c = false ∨ HashCache.Check (hashCache c) u p = false) as Hmiss.
  { apply andb_false_iff in Hhit. tauto. }
  rewrite (Check_miss cmp c u p pw) by done.
  destruct (cmp pw p) eqn:Hok; simpl.
  - set (c1 := set_hashCache c (HashCache.Store (hashCache c) u p)).
    destruct (UseCache c) eqn:Hon.
    + apply (Check_cache_hit cmp c1 u p pw); [done..|].
      simpl. apply HashCache_Check_Store. by left.
    + rewrite (Check_miss cmp c1 u p pw), Hok by (done || by left).
      unfold c1, set_hashCache. simpl. by rewrite HashCache_Store_idem.
  - by rewrite (Check_miss cmp c u p pw), Hok.
Qed.

(** X2. [Check] is idempotent: asked the same question again, it gives
    the same answer and leaves the store as the first call left it,
    whether the cache is on or off. *)
Theorem Check_idempotent (cmp : string → string → bool) (c : CredentialsStore)
    (username password : string) :
  Check cmp (Check cmp c username password).2 username password =
    ((Check cmp c username password).1, (Check cmp c username password).2).
Proof.
  rewrite Check_again. by destruct (Check cmp c username password).
Qed.

(** X3. [Password] and [Check] agree on who is known.  The value
    [Password] returns for a user is itself accepted by [Check] for
    that user (a stored hash passes as the password), without a call
    of the comparator or a write; and for a user [Password] does not
    find, it returns the empty string and [Check] refuses every
    password. *)
Theorem stored_value_is_accepted (cmp : string → string → bool) (c : CredentialsStore)
    (username : string) :
  (∀ pw, Password c username = (pw, true) → Check cmp c username pw = (true, c)) ∧
  (∀ x, Password c username = (x, false) →
        x = "" ∧ ∀ password, Check cmp c username password = (false, c)).
Proof.
  unfold Password. destruct (store c !! username) as [pw|] eqn:Hs.
  - split; [|intros x [= _ ?]; done].
    intros pw' [= <-]. by apply Check_plain.
  - split; [intros pw [= _ ?]; done|].
    intros x [= <-]. split; [done|]. intros password. by apply Check_unknown.
Qed.

Lemma AA_closed_unknown cmp c u p perm :
  store c !! u = None →
  AA cmp (Some c) u p perm = (HasAnyPerm c AllUsers [perm; PermAll], Some c).
Proof.
  intros Hs. unfold AA. rewrite (Check_unknown cmp c u p Hs).
  destruct (HasAnyPerm c AllUsers [perm; PermAll]); [done|].
  by destruct (String.eqb u "").
Qed.

(** X4. For a username the password mapping does not have, [AA] grants
    exactly what the wildcard identity is granted ([perm] or the
    sentinel), whatever the password and whatever permissions are
    recorded under that username; the store is not written. *)
Theorem AA_unknown_user (cmp : string → string → bool) (c : CredentialsStore)
    (username password perm : string) :
  store c !! username = None →
  (AA cmp (Some c) username password perm).2 = Some c ∧
  ((AA cmp (Some c) username password perm).1 = true ↔
   holds c AllUsers perm ∨ holds c AllUsers PermAll).
Proof.
  intros Hs. rewrite (AA_closed_unknown cmp c username password perm Hs). simpl.
  split; [done|]. apply wildcard_open.
Qed.

(** X5. [CheckRequest] is [Check] on the credentials of the request
    when the request has them, store written as [Check] writes it.  A
    request without credentials is refused with the store untouched,
    also when [Check] would accept the username and password that
    [BasicAuth] returns beside its false. *)
Theorem CheckRequest_follows_Check `{BasicAuther B} (cmp : string → string → bool)
    (c : CredentialsStore) (b : B) (username password : string) :
  (BasicAuth b = (username, password, true) →
     CheckRequest cmp c b = Check cmp c username password) ∧
  (BasicAuth b = (username, password, false) →
     CheckRequest cmp c b = (false, c)).
Proof.
  unfold CheckRequest. split; intros ->; simpl; [|done].
  by destruct (Check cmp c username password) as [[|] c'].
Qed.

(** ** Permissions, once more *)

Lemma HasAnyPerm_app c u ps qs :
  HasAnyPerm c u (ps ++ qs) = HasAnyPerm c u ps || HasAnyPerm c u qs.
Proof.
  induction ps as [|p ps IH]; [done|].
  simpl. by destruct (HasPerm c u p).
Qed.

(** X6. [HasAnyPerm] is the disjunction of [HasPerm] over the
    permissions it is given: true exactly when one of them is held by
    the username or by the wildcard identity, false on no permissions,
    and over a concatenation the disjunction of the two parts (so
    neither order nor repetition matters). *)
Theorem HasAnyPerm_any (c : CredentialsStore) (username : string) :
  (∀ ps, HasAnyPerm c username ps = true ↔
         ∃ p, p ∈ ps ∧ (holds c username p ∨ holds c AllUsers p)) ∧
  HasAnyPerm c username [] = false ∧
  (∀ ps qs, HasAnyPerm c username (ps ++ qs) =
            HasAnyPerm c username ps || HasAnyPerm c username qs).
Proof.
  split; [|split; [done|apply HasAnyPerm_app]].
  intros ps. rewrite HasAnyPerm_true.
  split; intros (p & Hin & Hp); exists p; (split; [done|]); by apply HasPerm_true.
Qed.

(** X7. The all-permissions sentinel is a permission like any other to
    [HasPerm] and [HasAnyPerm]; [AA] is what gives it its meaning.  A
    user whose set has the sentinel and not [perm], with a wildcard
    identity that does not hold [perm], is refused by [HasPerm] and by
    [HasAnyPerm] on [perm], and is granted [perm] by [AA] on the stored
    password. *)
Theorem sentinel_counts_in_AA_only (cmp : string → string → bool) (c : CredentialsStore)
    (username pw perm : string) :
  username ≠ "" →
  store c !! username = Some pw →
  holds c username PermAll →
  ¬ holds c username perm →
  ¬ holds c AllUsers perm →
  HasPerm c username perm = false ∧
  HasAnyPerm c username [perm] = false ∧
  AA cmp (Some c) username pw perm = (true, Some c).
Proof.
  intros Hu Hs Hall Hno Hwild.
  assert (HasPerm c username perm = false) as Hp by (apply HasPerm_false; tauto).
  split; [done|]. split; [simpl; by rewrite Hp|].
  unfold AA. destruct (HasAnyPerm c AllUsers [perm; PermAll]); [done|].
  rewrite (eqb_empty_false _ Hu), (Check_plain cmp c username pw Hs). simpl.
  rewrite Hp. assert (HasPerm c username PermAll = true) as ->; [|done].
  apply HasPerm_true. by left.
Qed.

(** ** The hash cache does not change answers *)

Lemma Check_keeps_cache_sound cmp c u p :
  cache_sound cmp c → cache_sound cmp (Check cmp c u p).2.
Proof.
  intros Hsound. destruct (store c !! u) as [pw|] eqn:Hs.
  2: { by rewrite (Check_unknown cmp c u p Hs). }
  destruct (decide (p = pw)) as [->|Hne].
  { by rewrite (Check_plain cmp c u pw Hs). }
  destruct (UseCache c && HashCache.Check (hashCache c) u p) eqn:Hhit.
  { apply andb_true_iff in Hhit as [Hon Hhit].
    by rewrite (Check_cache_hit cmp c u p pw). }
  rewrite (Check_miss cmp c u p pw Hs Hne) by (apply andb_false_iff in Hhit; tauto).
  destruct (cmp pw p) eqn:Hok; [|done].
  intros u' x Hx. simpl in Hx. apply HashCache_Check_Store in Hx as [[-> ->]|Hx].
  - exists pw. done.
  - by apply Hsound.
Qed.

Lemma after_queries_keep_cache_sound cmp c qs :
  cache_sound cmp c → cache_sound cmp (after_queries cmp c qs).
Proof.
  revert c. induction qs as [|q qs IH]; intros c Hsound; [done|].
  unfold after_queries in *. simpl. apply IH.
  destruct (after_query_cases cmp c q) as [-> | (u & p & ->)]; [done|].
  by apply Check_keeps_cache_sound.
Qed.

Lemma Check_sound_answer cmp c u p :
  cache_sound cmp c →
  (Check cmp c u p).1 =
    match store c !! u with
    | None => false
    | Some pw => bool_decide (p = pw) || cmp pw p
    end.
Proof.
  intros Hsound. destruct (store c !! u) as [pw|] eqn:Hs.
  2: { by rewrite (Check_unknown cmp c u p Hs). }
  destruct (decide (p = pw)) as [->|Hne].
  { rewrite (Check_plain cmp c u pw Hs). by rewrite bool_decide_eq_true_2. }
  rewrite bool_decide_eq_false_2 by done. simpl.
  destruct (UseCache c && HashCache.Check (hashCache c) u p) eqn:Hhit.
  - apply andb_true_iff in Hhit as [Hon Hhit].
    rewrite (Check_cache_hit cmp c u p pw) by done.
    destruct (Hsound u p Hhit) as (pw' & Hs' & Hok). by simplify_eq.
  - rewrite (Check_miss cmp c u p pw Hs Hne) by (apply andb_false_iff in Hhit; tauto).
    by destruct (cmp pw p).
Qed.

Lemma empty_cache_sound cmp c :
  (∀ u x, HashCache.Check (hashCache c) u x = false) → cache_sound cmp c.
Proof. intros Hempty u x Hx. by rewrite Hempty in Hx. Qed.

(** X8. The hash cache is transparent.  If every cached value of a
    user is one the comparator accepts against the user's stored value
    (so it is on a store with an empty cache), queries keep it so, and
    after any of them [Check] answers as if there were no cache: true
    exactly for a known user and a password that equals the stored
    value or passes the comparison against it, with [UseCache] on or
    off. *)
Theorem hash_cache_is_transparent (cmp : string → string → bool) (c : CredentialsStore) :
  cache_sound cmp c →
  ∀ qs,
    cache_sound cmp (after_queries cmp c qs) ∧
    ∀ b username password,
      (Check cmp (set_UseCache (after_queries cmp c qs) b) username password).1 =
        match store c !! username with
        | None => false
        | Some pw => bool_decide (password = pw) || cmp pw password
        end.
Proof.
  intros Hsound qs.
  pose proof (after_queries_keep_cache_sound cmp c qs Hsound) as Hafter.
  split; [done|]. intros b username password.
  rewrite Check_sound_answer by done. simpl.
  by destruct (after_queries_frame cmp c qs) as (-> & _ & _).
Qed.

(** ** Load, once more *)

Lemma Load_loop_error items : ∀ c cred,
  (Load_loop c cred items).2 = None ↔ decoded_prefix items = items.
Proof.
  induction items as [|[e|o] rest IH]; intros c cred; simpl; [done..|].
  rewrite IH. split; [by intros ->|by intros [= ?]].
Qed.

Lemma Load_loop_first_failure pre e post : ∀ c cred,
  decoded_prefix pre = pre →
  (Load_loop c cred (pre ++ DecodeFail e :: post)).2 = Some e.
Proof.
  induction pre as [|[e'|o] pre IH]; intros c cred Hpre; simpl in *; [done..|].
  apply IH. by injection Hpre.
Qed.

(** X9. [Load] returns nil exactly when the opening token, every
    [Decode] and the closing token succeed.  When the opening token is
    read and a [Decode] fails, its error is the one returned: the
    records after it and the closing token are not looked at. *)
Theorem Load_error (c : CredentialsStore) (r : Reader) :
  ((Load c r).2 = None ↔
   r_open r = None ∧ decoded_prefix (r_items r) = r_items r ∧ r_close r = None) ∧
  (∀ pre e post,
     r_open r = None →
     r_items r = pre ++ DecodeFail e :: post →
     decoded_prefix pre = pre →
     (Load c r).2 = Some e).
Proof.
  unfold Load. split.
  - destruct (r_open r) as [e|]; [split; [done|by intros [? _]]|].
    rewrite <- (Load_loop_error (r_items r) c zeroCredential).
    destruct (Load_loop c zeroCredential (r_items r)) as [c' [e|]]; simpl.
    + split; [done|by intros (_ & ? & _)].
    + destruct (r_close r); split; try done. by intros (_ & _ & ?).
  - intros pre e post -> Hitems Hpre.
    pose proof (Load_loop_first_failure pre e post c zeroCredential Hpre) as Hfail.
    rewrite <- Hitems in Hfail.
    destruct (Load_loop c zeroCredential (r_items r)) as [c' [e'|]]; simpl in *; [done|done].
Qed.

Lemma installs_frame l : ∀ c,
  hashCache (foldl install c l) = hashCache c ∧
  UseCache (foldl install c l) = UseCache c.
Proof.
  induction l as [|cr l IH]; intros c; [done|].
  simpl. by destruct (IH (install c cr)) as [-> ->].
Qed.

Lemma installs_known l : ∀ c u,
  (is_Some (store (foldl install c l) !! u) ↔
   is_Some (store c !! u) ∨ u ∈ Credential.Username <$> l) ∧
  (is_Some (perms (foldl install c l) !! u) ↔
   is_Some (perms c !! u) ∨ u ∈ Credential.Username <$> l).
Proof.
  induction l as [|cr l IH]; intros c u.
  - simpl. split; (split; [by left|]); (intros [?|Hin]; [done|by apply elem_of_nil in Hin]).
  - simpl. destruct (IH (install c cr) u) as [-> ->]. simpl.
    rewrite !lookup_insert_is_Some, !elem_of_cons.
    assert (u = Credential.Username cr ↔ Credential.Username cr = u) by (split; congruence).
    destruct (decide (Credential.Username cr = u)); tauto.
Qed.

(** X10. What [Load] leaves alone.  It never writes the hash cache or
    [UseCache]; a username no consumed record has keeps the password
    and the permission set it had before; and the users of the
    password mapping and of the permission mapping both grow by
    exactly the consumed usernames, so the two mappings have the same
    users after the load if they had before. *)
Theorem Load_frame (c : CredentialsStore) (r : Reader) :
  hashCache (Load c r).1 = hashCache c ∧
  UseCache (Load c r).1 = UseCache c ∧
  (∀ u, u ∉ Credential.Username <$> consumed r →
        store (Load c r).1 !! u = store c !! u ∧
        perms (Load c r).1 !! u = perms c !! u) ∧
  (∀ u, (is_Some (store (Load c r).1 !! u) ↔
         is_Some (store c !! u) ∨ u ∈ Credential.Username <$> consumed r) ∧
        (is_Some (perms (Load c r).1 !! u) ↔
         is_Some (perms c !! u) ∨ u ∈ Credential.Username <$> consumed r)).
Proof.
  rewrite Load_installs.
  destruct (installs_frame (consumed r) c) as [-> ->].
  split; [done|]. split; [done|]. split.
  - intros u Hu. by apply installs_other.
  - intros u. apply installs_known.
Qed.

(** X11. [Load] replaces, it does not merge.  After a load (failed or
    not) onto any store, the permissions of a username are those of
    its last consumed record and no other: [HasPerm] holds exactly for
    them and for what the wildcard identity holds, whatever the store
    or an earlier record of the stream granted that username; and its
    password is that record's. *)
Theorem Load_replaces (c : CredentialsStore) (r : Reader)
    (l1 : list Credential.t) (cr : Credential.t) (l2 : list Credential.t) :
  consumed r = l1 ++ cr :: l2 →
  Credential.Username cr ∉ Credential.Username <$> l2 →
  Password (Load c r).1 (Credential.Username cr) = (Credential.Password cr, true) ∧
  ∀ perm,
    HasPerm (Load c r).1 (Credential.Username cr) perm = true ↔
    perm ∈ Credential.Perms cr ∨ holds (Load c r).1 AllUsers perm.
Proof.
  intros Hcons Hlast. rewrite Load_installs, Hcons.
  destruct (installs_last c l1 cr l2 Hlast) as [Hs Hp]. split.
  - unfold Password. by rewrite Hs.
  - intros perm. by rewrite HasPerm_true, Hp.
Qed.

(** X12. [Load] does not clear the hash cache, so a reload that changes
    a user's stored value does not revoke what was verified before:
    with [UseCache] on, a password in the user's hash cache is accepted
    after the load for as long as the user is known, under every
    comparator, whatever the new stored value. *)
Theorem Load_keeps_verified_passwords (cmp : string → string → bool) (c : CredentialsStore)
    (r : Reader) (username password : string) :
  UseCache c = true →
  HashCache.Check (hashCache c) username password = true →
  is_Some (store (Load c r).1 !! username) →
  Check cmp (Load c r).1 username password = (true, (Load c r).1).
Proof.
  intros Hon Hhit [pw Hs].
  destruct (decide (password = pw)) as [->|Hne]; [by apply Check_plain|].
  apply (Check_cache_hit cmp _ username password pw Hs Hne).
  - rewrite Load_installs. by destruct (installs_frame (consumed r) c) as [_ ->].
  - rewrite Load_installs. by destruct (installs_frame (consumed r) c) as [-> _].
Qed.

Lemma consumed_from_app pre : ∀ cred rest,
  decoded_prefix pre = pre →
  consumed_from cred (pre ++ rest) =
    consumed_from cred pre ++
    consumed_from (default cred (last (consumed_from cred pre))) rest.
Proof.
  induction pre as [|[e|o] pre IH]; intros cred rest Hpre; simpl in *; [done..|].
  injection Hpre as Hpre. rewrite (IH _ rest Hpre). do 2 f_equal.
  rewrite last_cons. by destruct (last (consumed_from (Decode o cred) pre)).
Qed.

Lemma consumed_at c r pre o post :
  r_open r = None →
  r_items r = pre ++ DecodeObject o :: post →
  decoded_prefix pre = pre →
  consumed r =
    consumed_from zeroCredential pre ++
    Decode o (cred_after (consumed_from zeroCredential pre)) ::
    consumed_from (Decode o (cred_after (consumed_from zeroCredential pre))) post
  ∧ (Load c r).1 = foldl install c (consumed r).
Proof.
  intros Hopen Hitems Hpre. split; [|apply Load_installs].
  unfold consumed. rewrite Hopen, Hitems. by rewrite consumed_from_app.
Qed.

(** X13. [Load] decodes every object into the same variable, so a key
    an object leaves out keeps the value of the object before it (the
    zero value for the first).  The record installed for the object at
    a position of the stream is the decoded object over the record
    before it; when that object has a username and no password and no
    later record replaces it, the user's stored password is the
    password of the record before, and with no permission list its
    permissions are those of the record before. *)
Theorem Load_inherits_missing_fields (c : CredentialsStore) (r : Reader)
    (pre : list DecodeStep) (o : JsonCredential) (post : list DecodeStep) (u : string) :
  r_open r = None →
  r_items r = pre ++ DecodeObject o :: post →
  decoded_prefix pre = pre →
  j_username o = Some u →
  u ∉ Credential.Username <$>
        consumed_from (Decode o (cred_after (consumed_from zeroCredential pre))) post →
  (j_password o = None →
     Password (Load c r).1 u =
       (Credential.Password (cred_after (consumed_from zeroCredential pre)), true)) ∧
  (j_perms o = None →
     ∀ perm, holds (Load c r).1 u perm ↔
             perm ∈ Credential.Perms (cred_after (consumed_from zeroCredential pre))).
Proof.
  intros Hopen Hitems Hpre Hu Hlast.
  destruct (consumed_at c r pre o post Hopen Hitems Hpre) as [Hcons ->].
  rewrite Hcons.
  set (prev := cred_after (consumed_from zeroCredential pre)) in *.
  assert (Credential.Username (Decode o prev) = u) as Hname by (simpl; by rewrite Hu).
  rewrite <- Hname in Hlast.
  destruct (installs_last c (consumed_from zeroCredential pre) (Decode o prev) _ Hlast)
    as [Hs Hp].
  rewrite Hname in Hs, Hp. split.
  - intros Hpw. unfold Password. rewrite Hs. simpl. by rewrite Hpw.
  - intros Hperms perm. rewrite Hp. simpl. by rewrite Hperms.
Qed.

(** ** Construction *)

Lemma NewCredentialsStore_unknown u :
  store NewCredentialsStore !! u = None ∧ perms NewCredentialsStore !! u = None.
Proof. split; apply lookup_empty. Qed.

(** X14. [NewCredentialsStoreFromFile] returns no store exactly when
    the file cannot be opened.  Otherwise it returns a store together
    with whatever [Load] returned, error or not; that store has
    [UseCache] on and an empty hash cache, and the users of its
    password mapping and of its permission mapping are the same: the
    usernames of the records consumed. *)
Theorem NewCredentialsStoreFromFile_result :
  (∀ e, NewCredentialsStoreFromFile (inl e) = (None, Some e)) ∧
  (∀ r, ∃ c,
     NewCredentialsStoreFromFile (inr r) = (Some c, (Load NewCredentialsStore r).2) ∧
     c = foldl install NewCredentialsStore (consumed r) ∧
     UseCache c = true ∧
     (∀ u x, HashCache.Check (hashCache c) u x = false) ∧
     (∀ u, (is_Some (store c !! u) ↔ u ∈ Credential.Username <$> consumed r) ∧
           (is_Some (perms c !! u) ↔ u ∈ Credential.Username <$> consumed r))).
Proof.
  split; [done|]. intros r. exists (Load NewCredentialsStore r).1.
  split; [unfold NewCredentialsStoreFromFile; by destruct (Load NewCredentialsStore r)|].
  rewrite Load_installs. split; [done|].
  destruct (installs_frame (consumed r) NewCredentialsStore) as [-> ->].
  split; [done|]. split; [done|]. intros u.
  destruct (installs_known (consumed r) NewCredentialsStore u) as [-> ->].
  destruct (NewCredentialsStore_unknown u) as [-> ->].
  split; (split; [intros [[? [=]]|?]; done | by right]).
Qed.

Lemma HasAnyPerm_nobody c u ps :
  (∀ who, perms c !! who = None) → HasAnyPerm c u ps = false.
Proof.
  intros Hnone. induction ps as [|p ps IH]; [done|].
  simpl. rewrite IH. unfold HasPerm. by rewrite !Hnone.
Qed.

(** X15. The empty stream loads without error into a store that knows
    nobody, and such a store refuses everything: for every username,
    password, permissions and comparator [Check], [HasPerm],
    [HasAnyPerm] and [AA] are false and [Password] finds nothing.  An
    empty store is not a nil store: [AA] on the nil store grants. *)
Theorem empty_store_refuses (cmp : string → string → bool) :
  Load NewCredentialsStore (array []) = (NewCredentialsStore, None) ∧
  ∀ username password perm ps,
    Check cmp NewCredentialsStore username password = (false, NewCredentialsStore) ∧
    Password NewCredentialsStore username = ("", false) ∧
    HasPerm NewCredentialsStore username perm = false ∧
    HasAnyPerm NewCredentialsStore username ps = false ∧
    AA cmp (Some NewCredentialsStore) username password perm
      = (false, Some NewCredentialsStore) ∧
    AA cmp None username password perm = (true, None).
Proof.
  split; [done|]. intros username password perm ps.
  assert (∀ who, perms NewCredentialsStore !! who = None) as Hnone
    by (intros who; apply lookup_empty).
  split; [by apply Check_unknown, lookup_empty|].
  split; [done|]. split; [apply (HasAnyPerm_nobody _ username [perm] Hnone)|].
  split; [by apply HasAnyPerm_nobody|]. split; [|done].
  rewrite AA_closed_unknown by apply lookup_empty.
  by rewrite HasAnyPerm_nobody.
Qed.

(** X16. [AA] authenticates before it authorizes, and the write of
    the authentication stays: when the wildcard identity does not
    grant, and the password passes on the hash comparison, but the
    user holds neither [perm] nor the sentinel, [AA] answers false and
    returns the store with the pair in the hash cache. *)
Theorem AA_denied_after_authentication (cmp : string → string → bool)
    (c : CredentialsStore) (username password pw perm : string) :
  username ≠ "" →
  store c !! username = Some pw →
  password ≠ pw →
  UseCache c = false ∨ HashCache.Check (hashCache c) username password = false →
  cmp pw password = true →
  ¬ (holds c AllUsers perm ∨ holds c AllUsers PermAll) →
  ¬ (holds c username perm ∨ holds c username PermAll) →
  AA cmp (Some c) username password perm =
    (false, Some (set_hashCache c (HashCache.Store (hashCache c) username password))) ∧
  HashCache.Check
    (hashCache (default c (AA cmp (Some c) username password perm).2))
    username password = true.
Proof.
  intros Hu Hs Hne Hmiss Hok Hwild Hown.
  assert (AA cmp (Some c) username password perm =
    (false, Some (set_hashCache c (HashCache.Store (hashCache c) username password)))) as ->.
  { unfold AA. rewrite (wildcard_closed c perm Hwild), (eqb_empty_false _ Hu).
    rewrite (Check_hash_path cmp c username password pw) by done.
    cbv beta iota zeta delta [negb].
    rewrite (HasAnyPerm_ext c) by done.
    assert (HasAnyPerm c username [perm; PermAll] = false) as ->; [|done].
    rewrite HasAnyPerm_pair. apply orb_false_iff. rewrite !HasPerm_false. tauto. }
  split; [done|]. simpl. apply HashCache_Check_Store. by left.
Qed.

(** ** The further properties at work on the sample stores *)

Lemma stored_value_is_accepted_witness :
  Check reject_all storeC "bob" (toy_hash "pw") = (true, storeC) ∧
  Check toy_compare storeC "eve" "pw" = (false, storeC).
Proof.
  split.
  - apply (proj1 (stored_value_is_accepted reject_all storeC "bob")).
    vm_compute; reflexivity.
  - apply (proj2 (stored_value_is_accepted toy_compare storeC "eve") "").
    vm_compute; reflexivity.
Defined.

Lemma AA_unknown_user_witness :
  (AA toy_compare (Some storeB) "eve" "guess" "status").1 = true.
Proof.
  apply (AA_unknown_user toy_compare storeB "eve" "guess" "status").
  - vm_compute; reflexivity.
  - left. eapply holds_here; vm_compute; reflexivity.
Defined.

Lemma CheckRequest_follows_Check_witness :
  Check toy_compare storeAnon "" "" = (true, storeAnon) ∧
  CheckRequest toy_compare storeAnon Anonymous = (false, storeAnon) ∧
  CheckRequest toy_compare storeC (WithBasicAuth "bob" "pw") =
    Check toy_compare storeC "bob" "pw".
Proof.
  split; [vm_compute; reflexivity|]. split.
  - apply (proj2 (CheckRequest_follows_Check toy_compare storeAnon Anonymous "" "")).
    reflexivity.
  - apply (proj1 (CheckRequest_follows_Check toy_compare storeC
                    (WithBasicAuth "bob" "pw") "bob" "pw")).
    reflexivity.
Defined.

Lemma sentinel_counts_in_AA_only_witness :
  HasPerm storeRoot "root" "remove" = false ∧
  HasAnyPerm storeRoot "root" ["remove"] = false ∧
  AA toy_compare (Some storeRoot) "root" "pw" "remove" = (true, Some storeRoot).
Proof.
  apply (sentinel_counts_in_AA_only toy_compare storeRoot "root" "pw" "remove").
  - discriminate.
  - vm_compute; reflexivity.
  - eapply holds_here; vm_compute; reflexivity.
  - eapply holds_nothing; vm_compute; reflexivity.
  - apply holds_nobody; vm_compute; reflexivity.
Defined.

Lemma hash_cache_is_transparent_witness :
  (Check toy_compare
     (set_UseCache (after_queries toy_compare storeC [QCheck "bob" "pw"]) false)
     "bob" "pw").1 = true.
Proof.
  destruct (hash_cache_is_transparent toy_compare storeC) with (qs := [QCheck "bob" "pw"])
    as [_ Hanswer].
  - apply empty_cache_sound. intros u x. reflexivity.
  - rewrite Hanswer. vm_compute; reflexivity.
Defined.

Lemma Load_error_witness :
  (Load NewCredentialsStore truncated).2 = Some "unexpected EOF".
Proof.
  apply (proj2 (Load_error NewCredentialsStore truncated)
           [object "alice" "secret" ["query"]] "unexpected EOF" []);
    reflexivity.
Defined.

Lemma Load_frame_witness :
  store (Load storeA (array [object "bob" "pw" []])).1 !! "alice" = store storeA !! "alice".
Proof.
  apply (proj1 (proj2 (proj2 (Load_frame storeA (array [object "bob" "pw" []]))))).
  simpl. intros Hin. apply list_elem_of_singleton in Hin. discriminate Hin.
Defined.

Lemma Load_replaces_witness :
  Password (Load storeA twice).1 "alice" = ("new", true).
Proof.
  apply (Load_replaces storeA twice
           [Credential.Build "alice" "old" []; Credential.Build "bob" "pw" ["status"]]
           (Credential.Build "alice" "new" ["query"]) []).
  - vm_compute; reflexivity.
  - apply not_elem_of_nil.
Defined.

Lemma Load_keeps_verified_passwords_witness :
  Check reject_all
    (Load (Check toy_compare storeC "bob" "pw").2 (array [object "bob" "changed" []])).1
    "bob" "pw"
  = (true,
     (Load (Check toy_compare storeC "bob" "pw").2 (array [object "bob" "changed" []])).1).
Proof.
  apply Load_keeps_verified_passwords.
  - vm_compute; reflexivity.
  - vm_compute; reflexivity.
  - exists "changed". vm_compute; reflexivity.
Defined.

Lemma Load_inherits_missing_fields_witness :
  Password (Load NewCredentialsStore sparse).1 "bob" = ("secret", true).
Proof.
  apply (Load_inherits_missing_fields NewCredentialsStore sparse
           [object "alice" "secret" ["query"]]
           {| j_username := Some "bob"; j_password := None; j_perms := None |}
           [] "bob").
  - reflexivity.
  - reflexivity.
  - reflexivity.
  - reflexivity.
  - apply not_elem_of_nil.
  - reflexivity.
Defined.

Lemma AA_denied_after_authentication_witness :
  (AA toy_compare (Some storeHashed) "bob" "pw" "remove").1 = false ∧
  HashCache.Check
    (hashCache (default storeHashed (AA toy_compare (Some storeHashed) "bob" "pw" "remove").2))
    "bob" "pw" = true.
Proof.
  destruct (AA_denied_after_authentication toy_compare storeHashed
              "bob" "pw" (toy_hash "pw") "remove") as [Hdenied Hcached].
  - discriminate.
  - vm_compute; reflexivity.
  - vm_compute; discriminate.
  - right. vm_compute; reflexivity.
  - vm_compute; reflexivity.
  - intros [Hw | Hw]; revert Hw; apply holds_nobody; vm_compute; reflexivity.
  - intros [Hw | Hw]; revert Hw; eapply holds_nothing; vm_compute; reflexivity.
  - split; [by rewrite Hdenied|exact Hcached].
Defined.
